(** * The per-peer lock REST client (cmd/lock-rest-client.go)

    A shallow embedding of [lockRESTClient]: its health flag and retry
    timer, the [call] wrapper around the REST transport, the error
    mapping [toLockError], the six lock operations and the constructor.

    The client is a Go struct mutated in place, so the embedding threads a
    [World] (clock, allocator, the client) through a small state monad
    whose second outcome is a run-time panic.  The transport
    ([rest.Client]), the network-error test and the package constants that
    live in other files are collected in the class [Env].

    Two smaller parts follow the client: the environment lookup of
    pkg/env, and the loops over the endpoint list behind the local memory,
    CPU load and CPU hardware reports. *)

From Stdlib Require Import ZArith Lia.
From stdpp Require Import base option strings gmap list.

Local Open Scope Z_scope.

Set Warnings "-clear-no-such-hyp".

(** ** Go values *)

(** An [error] is an interface value.  Those built by [errors.New] are
    pointers, so [==] on them is identity: [err_ptr] is the identity and
    [Error] the text returned by the [Error()] method.  Package-level
    error variables sit at [Global] addresses, allocations made while the
    program runs at [Heap] ones. *)
Inductive ptr : Type :=
| Global (name : string)
| Heap (n : N).

Record error : Type := Err { err_ptr : ptr; Error : string }.

#[global] Instance ptr_eq_dec : EqDecision ptr.
Proof. solve_decision. Defined.

#[global] Instance error_eq_dec : EqDecision error.
Proof. solve_decision. Defined.

(** [url.Values] is [map[string][]string]; [Set] replaces the entry of a
    key by the one-element slice. *)
Abbreviation Values := (gmap string (list string)).

Definition Values_Set (key value : string) (v : Values) : Values :=
  <[key := [value]]> v.

(** [dsync.LockArgs]. *)
Record LockArgs : Type := {
  UID : string;
  Source : string;
  Resource : string;
  ServerAddr : string;
  ServiceEndpoint : string
}.

(** [xnet.Host], [url.URL] and the part of [tls.Config] the constructor
    fills in. *)
Record Host : Type := { Name : string; Port : N; IsPortSet : bool }.

Record URL : Type := { Scheme : string; url_Host : string; Path : string }.

Record tlsConfig : Type := {
  ServerName : string;
  RootCAs : list string;
  NextProtos : list string
}.

(** A [time.Timer]: its channel [C] holds a value from [fires_at] on. *)
Record Timer : Type := { fires_at : Z }.

#[global] Instance Timer_eq_dec : EqDecision Timer.
Proof. solve_decision. Defined.

(** ** The transport collaborator *)

(** One [restClient.Call(method, values, body, length)]. *)
Record Invocation : Type := {
  inv_method : string;
  inv_values : Values;
  inv_body : option string;
  inv_length : Z
}.

(** What is observable of a [rest.Client]: the calls it received, oldest
    first, and whether [Close] was called on it. *)
Record RestClient : Type := {
  rc_log : list Invocation;
  rc_closed : bool
}.

(** What one call gives back, and how long it took. *)
Record Response : Type := {
  resp_body : option string;
  resp_err : option error;
  resp_elapsed : N
}.

(** Everything this file's code uses but does not define.  The texts of
    [errLockConflict] and [errLockNotExpired], [isNetworkError],
    [defaultRetryUnit], [globalIsSSL], [globalRootCAs], [lockRESTPath] and
    [Host.String] are declared elsewhere in the repository; [rest.NewClient]
    and [rest.Client.Call] are the transport, which answers as it likes:
    [rest_Call] sees the transport's history, the time and the call. *)
Class Env : Type := {
  lockConflictText : string;
  lockNotExpiredText : string;
  isNetworkError : error -> bool;
  defaultRetryUnit : Z;
  globalIsSSL : bool;
  globalRootCAs : list string;
  lockRESTPath : string;
  Host_String : Host -> string;
  rest_NewClient : URL -> option tlsConfig -> option error;
  rest_Call : RestClient -> Z -> Invocation -> Response
}.

(** The two package-level error values. *)
Definition errLockConflict `{Env} : error :=
  {| err_ptr := Global "errLockConflict"; Error := lockConflictText |}.

Definition errLockNotExpired `{Env} : error :=
  {| err_ptr := Global "errLockNotExpired"; Error := lockNotExpiredText |}.

(** Modelled from the spec: the six remote method names and the five
    request field names are constants declared outside this file; the
    names are those of the spec's section on external interfaces. *)
Definition lockRESTMethodRLock : string := "acquire-shared".
Definition lockRESTMethodLock : string := "acquire-exclusive".
Definition lockRESTMethodRUnlock : string := "release-shared".
Definition lockRESTMethodUnlock : string := "release-exclusive".
Definition lockRESTMethodForceUnlock : string := "force-release".
Definition lockRESTMethodExpired : string := "check-expired".

Definition lockRESTUID : string := "requester-id".
Definition lockRESTSource : string := "source".
Definition lockRESTResource : string := "resource".
Definition lockRESTServerAddr : string := "caller-address".
Definition lockRESTServerEndpoint : string := "caller-service-endpoint".

(** ** The client and the world it runs in *)

(** [lockRESTClient].  The mutex [lockSync] has no field here: every
    function below runs alone, from its first step to its last. *)
Record lockRESTClient : Type := {
  host : Host;
  restClient : RestClient;
  serverURL : URL;
  connected : bool;
  timer : option Timer
}.

Definition set_connected (b : bool) (c : lockRESTClient) : lockRESTClient :=
  {| host := host c; restClient := restClient c; serverURL := serverURL c;
     connected := b; timer := timer c |}.

Definition set_timer (t : option Timer) (c : lockRESTClient) : lockRESTClient :=
  {| host := host c; restClient := restClient c; serverURL := serverURL c;
     connected := connected c; timer := t |}.

Definition set_restClient (rc : RestClient) (c : lockRESTClient) : lockRESTClient :=
  {| host := host c; restClient := rc; serverURL := serverURL c;
     connected := connected c; timer := timer c |}.

(** The monotonic clock in nanoseconds, the next free heap address, and
    the one client under study. *)
Record World : Type := {
  clock : Z;
  heap_next : N;
  client : lockRESTClient
}.

Definition with_client (c : lockRESTClient) (w : World) : World :=
  {| clock := clock w; heap_next := heap_next w; client := c |}.

(** ** The monad: state passing, with panics *)

Inductive Outcome (A : Type) : Type :=
| Ret (a : A) (w : World)
| Panic (msg : string).

Arguments Ret {A} a w.
Arguments Panic {A} msg.

Definition M (A : Type) : Type := World -> Outcome A.

#[global] Instance M_ret : MRet M := fun A a w => Ret a w.

#[global] Instance M_bind : MBind M := fun A B k m w =>
  match m w with
  | Ret a w' => k a w'
  | Panic msg => Panic msg
  end.

Definition panic {A : Type} (msg : string) : M A := fun _ => Panic msg.

Definition get_client : M lockRESTClient := fun w => Ret (client w) w.

Definition put_client (c : lockRESTClient) : M unit :=
  fun w => Ret tt (with_client c w).

Definition time_Now : M Z := fun w => Ret (clock w) w.

(** [time.NewTimer(d)]. *)
Definition time_NewTimer (d : Z) : M Timer :=
  fun w => Ret {| fires_at := clock w + d |} w.

(** [errors.New(text)]: a fresh pointer. *)
Definition errors_New (text : string) : M error :=
  fun w => Ret {| err_ptr := Heap (heap_next w); Error := text |}
               {| clock := clock w; heap_next := N.succ (heap_next w);
                  client := client w |}.

(** Reading a field through a pointer that may be nil. *)
Definition deref {A : Type} (p : option A) : M A :=
  match p with
  | Some a => mret a
  | None => panic "invalid memory address or nil pointer dereference"
  end.

(** [client.restClient.Call(method, values, body, length)]: the transport
    records the call, answers, and time has passed. *)
Definition log_call (inv : Invocation) (rc : RestClient) : RestClient :=
  {| rc_log := rc_log rc ++ [inv]; rc_closed := rc_closed rc |}.

Definition restClient_Call `{Env} (method : string) (values : Values)
    (body : option string) (length : Z) : M (option string * option error) :=
  fun w =>
    let inv := {| inv_method := method; inv_values := values;
                  inv_body := body; inv_length := length |} in
    let r := rest_Call (restClient (client w)) (clock w) inv in
    Ret (resp_body r, resp_err r)
        {| clock := clock w + Z.of_N (resp_elapsed r);
           heap_next := heap_next w;
           client := set_restClient (log_call inv (restClient (client w)))
                                    (client w) |}.

(** [client.restClient.Close()]. *)
Definition restClient_Close : M unit :=
  c ← get_client;
  put_client (set_restClient {| rc_log := rc_log (restClient c);
                                rc_closed := true |} c).

(** [http.DrainBody(respBody)] reads the body to its end and closes it;
    nothing of the client changes. *)
Definition DrainBody (respBody : option string) : M unit := mret tt.

(** ** The functions of lock-rest-client.go *)

Definition toLockError `{Env} (err : option error) : option error :=
  match err with
  | None => None
  | Some e =>
      if decide (Error e = Error errLockConflict) then Some errLockConflict
      else if decide (Error e = Error errLockNotExpired) then Some errLockNotExpired
      else Some e
  end.

Definition ServerAddr_of (c : lockRESTClient) : string := url_Host (serverURL c).

Definition ServiceEndpoint_of (c : lockRESTClient) : string := Path (serverURL c).

(** [select { case <-client.timer.C: ...; default: }] receives when the
    timer has fired; [client.timer.C] is evaluated first, whatever the
    timer is. *)
Definition isHostUp : M bool :=
  c ← get_client;
  if connected c then mret true
  else
    tm ← deref (timer c);
    now ← time_Now;
    if bool_decide (fires_at tm <= now) then
      put_client (set_timer None (set_connected true c));;
      mret true
    else mret false.

Definition markHostDown `{Env} : M unit :=
  c ← get_client;
  if negb (connected c) then mret tt
  else
    tm ← time_NewTimer (defaultRetryUnit * 5);
    put_client (set_timer (Some tm) (set_connected false c)).

Definition errNodeDownText : string := "Lock rest server node is down".

Definition call `{Env} (method : string) (values : option Values)
    (body : option string) (length : Z) : M (option string * option error) :=
  up ← isHostUp;
  if negb up then
    e ← errors_New errNodeDownText;
    mret (None, Some e)
  else
    let values := default ∅ values in
    '(respBody, err) ← restClient_Call method values body length;
    match err with
    | None => mret (respBody, None)
    | Some e =>
        (if isNetworkError e then markHostDown else mret tt);;
        mret (None, toLockError (Some e))
    end.

Definition String_of `{Env} (c : lockRESTClient) : string := Host_String (host c).

Definition IsOnline (c : lockRESTClient) : bool := connected c.

Definition Close : M (option error) :=
  c ← get_client;
  put_client (set_connected false c);;
  restClient_Close;;
  mret None.

Definition lockArgsValues (args : LockArgs) : Values :=
  Values_Set lockRESTServerEndpoint (ServiceEndpoint args)
    (Values_Set lockRESTServerAddr (ServerAddr args)
      (Values_Set lockRESTResource (Resource args)
        (Values_Set lockRESTSource (Source args)
          (Values_Set lockRESTUID (UID args) ∅)))).

Definition restCall `{Env} (method : string) (args : LockArgs)
  : M (bool * option error) :=
  let values := lockArgsValues args in
  '(respBody, err) ← call method (Some values) None (-1);
  DrainBody respBody;;
  match err with
  | None => mret (true, None)
  | Some e =>
      if bool_decide (e = errLockConflict \/ e = errLockNotExpired)
      then mret (false, None)
      else mret (false, Some e)
  end.

Definition RLock `{Env} (args : LockArgs) := restCall lockRESTMethodRLock args.
Definition Lock `{Env} (args : LockArgs) := restCall lockRESTMethodLock args.
Definition RUnlock `{Env} (args : LockArgs) := restCall lockRESTMethodRUnlock args.
Definition Unlock `{Env} (args : LockArgs) := restCall lockRESTMethodUnlock args.
Definition ForceUnlock `{Env} (args : LockArgs) := restCall lockRESTMethodForceUnlock args.
Definition Expired `{Env} (args : LockArgs) := restCall lockRESTMethodExpired args.

(** [newlockRESTClient(peer)], called at time [now].  The log call on the
    failure path writes to the logger only. *)
Definition peerURL `{Env} (peer : Host) : URL :=
  let scheme := if globalIsSSL then "https" else "http" in
  {| Scheme := scheme; url_Host := Host_String peer; Path := lockRESTPath |}.

Definition peerTLS `{Env} (peer : Host) : option tlsConfig :=
  if globalIsSSL then
    Some {| ServerName := Name peer; RootCAs := globalRootCAs;
            NextProtos := ["http/1.1"] |}
  else None.

Definition newlockRESTClient `{Env} (now : Z) (peer : Host) : lockRESTClient :=
  let serverURL := peerURL peer in
  let tlsConfig := peerTLS peer in
  let restClient := {| rc_log := []; rc_closed := false |} in
  match rest_NewClient serverURL tlsConfig with
  | Some _ =>
      {| host := peer; restClient := restClient; serverURL := serverURL;
         connected := false;
         timer := Some {| fires_at := now + defaultRetryUnit * 5 |} |}
  | None =>
      {| host := peer; restClient := restClient; serverURL := serverURL;
         connected := true; timer := None |}
  end.

(** ** Callers *)

(** The six operations, as a caller picks them. *)
Inductive LockOp : Type :=
| OpRLock | OpLock | OpRUnlock | OpUnlock | OpForceUnlock | OpExpired.

Definition method_of (op : LockOp) : string :=
  match op with
  | OpRLock => lockRESTMethodRLock
  | OpLock => lockRESTMethodLock
  | OpRUnlock => lockRESTMethodRUnlock
  | OpUnlock => lockRESTMethodUnlock
  | OpForceUnlock => lockRESTMethodForceUnlock
  | OpExpired => lockRESTMethodExpired
  end.

Definition run_op `{Env} (op : LockOp) : LockArgs -> M (bool * option error) :=
  match op with
  | OpRLock => RLock
  | OpLock => Lock
  | OpRUnlock => RUnlock
  | OpUnlock => Unlock
  | OpForceUnlock => ForceUnlock
  | OpExpired => Expired
  end.

(** The transport call an operation makes when it makes one. *)
Definition invocation_of (op : LockOp) (args : LockArgs) : Invocation :=
  {| inv_method := method_of op; inv_values := lockArgsValues args;
     inv_body := None; inv_length := -1 |}.

(** Time passing between two calls. *)
Definition sleep (d : N) : M unit :=
  fun w => Ret tt {| clock := clock w + Z.of_N d; heap_next := heap_next w;
                     client := client w |}.

(** A caller that waits, calls, waits, calls, ... and keeps the replies. *)
Fixpoint run_calls `{Env} (cs : list (N * LockOp * LockArgs))
  : M (list (bool * option error)) :=
  match cs with
  | [] => mret []
  | (d, op, args) :: cs' =>
      sleep d;;
      r ← run_op op args;
      rs ← run_calls cs';
      mret (r :: rs)
  end.

Definition total_wait (cs : list (N * LockOp * LockArgs)) : Z :=
  foldr (fun c acc => Z.of_N c.1.1 + acc) 0 cs.

(** What can happen to a client over its life: a lock call, time passing,
    [Close]. *)
Inductive Step : Type :=
| StepOp (op : LockOp) (args : LockArgs)
| StepSleep (d : N)
| StepClose.

Definition run_step `{Env} (s : Step) : M unit :=
  match s with
  | StepOp op args => run_op op args;; mret tt
  | StepSleep d => sleep d
  | StepClose => Close;; mret tt
  end.

Fixpoint run_steps `{Env} (ss : list Step) : M unit :=
  match ss with
  | [] => mret tt
  | s :: ss' => run_step s;; run_steps ss'
  end.

Fixpoint count_ops (ss : list Step) : nat :=
  match ss with
  | [] => 0%nat
  | StepOp _ _ :: ss' => S (count_ops ss')
  | _ :: ss' => count_ops ss'
  end.


(** The worlds the steps of [call] lead to. *)
Definition recovered (w : World) : World :=
  with_client (set_timer None (set_connected true (client w))) w.

Definition refused (w : World) : World :=
  {| clock := clock w; heap_next := N.succ (heap_next w); client := client w |}.

Definition answered (inv : Invocation) (r : Response) (w : World) : World :=
  {| clock := clock w + Z.of_N (resp_elapsed r);
     heap_next := heap_next w;
     client := set_restClient (log_call inv (restClient (client w))) (client w) |}.

Definition tripped `{Env} (w : World) : World :=
  with_client
    (set_timer (Some {| fires_at := clock w + defaultRetryUnit * 5 |})
               (set_connected false (client w))) w.

(** What [restCall] makes of an error text. *)
Definition reply_of `{Env} (e : error) : bool * option error :=
  if bool_decide (Error e = lockConflictText \/ Error e = lockNotExpiredText)
  then (false, None) else (false, Some e).

(** ** A concrete environment

    A transport that answers the n-th call it receives with the n-th
    entry of a script and grants every call after the script's end; the
    retry unit is a parameter. *)
Definition granted : Response :=
  {| resp_body := Some ""; resp_err := None; resp_elapsed := 0 |}.

Definition failing (ident : N) (text : string) (elapsed : N) : Response :=
  {| resp_body := None;
     resp_err := Some {| err_ptr := Heap ident; Error := text |};
     resp_elapsed := elapsed |}.

Definition scripted (unit : Z) (script : list Response) : Env :=
  {| lockConflictText := "lock conflict";
     lockNotExpiredText := "lock not expired";
     isNetworkError := fun e => bool_decide (Error e = "connection refused");
     defaultRetryUnit := unit;
     globalIsSSL := false;
     globalRootCAs := [];
     lockRESTPath := "/minio/lock/v2";
     Host_String := Name;
     rest_NewClient := fun u _ =>
       if bool_decide (url_Host u = "")
       then Some {| err_ptr := Heap 0; Error := "empty host" |}
       else None;
     rest_Call := fun rc _ _ => default granted (script !! length (rc_log rc)) |}.

Definition second : Z := 1000000000.

Definition peer1 : Host := {| Name := "node1:9000"; Port := 9000; IsPortSet := true |}.

Definition nopeer : Host := {| Name := ""; Port := 0; IsPortSet := false |}.

Definition args1 : LockArgs :=
  {| UID := "u-1"; Source := "main.go:10"; Resource := "bucket/obj";
     ServerAddr := "node2:9000"; ServiceEndpoint := "/minio/lock/v2" |}.

Definition world_of (now : Z) (c : lockRESTClient) : World :=
  {| clock := now; heap_next := 0; client := c |}.

(** Three transports: one that grants, one that denies its first call,
    one whose first call fails on the network after two seconds. *)
Definition env_grant : Env := scripted second [].

Definition env_deny : Env := scripted second [failing 7 "lock conflict" 0].

Definition env_netfail : Env :=
  scripted second [failing 8 "connection refused" 2000000000].

(** A client built for [peer1] at time 0, and one that is Down until the
    fifth second. *)
Definition up_world (E : Env) : World :=
  world_of 0 (@newlockRESTClient E 0 peer1).

Definition down_world (E : Env) : World :=
  world_of 0 (set_timer (Some {| fires_at := 5 * second |})
                (set_connected false (@newlockRESTClient E 0 peer1))).

(** * The environment package (pkg/env/env.go) *)

Module envpkg.

(** The process environment, and [os.LookupEnv] on it: the value and
    [true] for a variable that is set, the empty string and [false]
    otherwise. *)
Abbreviation Environ := (gmap string string).

Definition os_LookupEnv (environ : Environ) (key : string) : string * bool :=
  match environ !! key with
  | Some v => (v, true)
  | None => ("", false)
  end.

Definition Get (environ : Environ) (key defaultValue : string) : string :=
  let '(v, ok) := os_LookupEnv environ key in
  if ok then v else defaultValue.

Definition Lookup (environ : Environ) (key : string) : string * bool :=
  os_LookupEnv environ key.

End envpkg.

(** * The local server information of the admin handlers *)

Module admin.

(** An [Endpoint], by the three fields these functions read. *)
Record Endpoint : Type := { Host : string; Path : string; IsLocal : bool }.

Record ServerMemUsageInfo (U : Type) : Type := {
  mu_Addr : string;
  Usage : list U;
  HistoricUsage : list U
}.

Record ServerCPULoadInfo (L : Type) : Type := {
  cl_Addr : string;
  Load : list L;
  HistoricLoad : list L
}.

Record ServerCPUHardwareInfo (I : Type) : Type := {
  ch_Addr : string;
  ch_Error : string;
  CPUInfo : list I
}.

Arguments mu_Addr {U}.
Arguments Usage {U}.
Arguments HistoricUsage {U}.
Arguments cl_Addr {L}.
Arguments Load {L}.
Arguments HistoricLoad {L}.
Arguments ch_Addr {I}.
Arguments ch_Error {I}.
Arguments CPUInfo {I}.

(** What the machine and the cluster give: the samplers of [pkg/mem],
    [pkg/cpu] and gopsutil, each asked a first, a second, ... time, and
    the two globals behind the reported address. *)
Section Functions.
Context {U L I : Type}.
Variables (mem_GetUsage mem_GetHistoricUsage : nat -> U).
Variables (cpu_GetLoad cpu_GetHistoricLoad : nat -> L).
Variable cpuhw_Info : nat -> list I + string.
Variable globalIsDistXL : bool.
Variable GetLocalPeer : list Endpoint -> string.

(** One turn of the loop of [getLocalMemUsage]. *)
Definition memUsage_step (st : list U * list U * gset string)
    (endpoint : Endpoint) : list U * list U * gset string :=
  let '(memUsages, historicUsages, seenHosts) := st in
  if decide (Host endpoint ∈ seenHosts) then st
  else
    let seenHosts := seenHosts ∪ {[Host endpoint]} in
    if IsLocal endpoint then
      (memUsages ++ [mem_GetUsage (length memUsages)],
       historicUsages ++ [mem_GetHistoricUsage (length historicUsages)],
       seenHosts)
    else (memUsages, historicUsages, seenHosts).

Definition getLocalMemUsage (endpoints : list Endpoint) (rHost : string)
  : ServerMemUsageInfo U :=
  let '(memUsages, historicUsages, _) :=
    foldl memUsage_step ([], [], ∅) endpoints in
  let addr := if globalIsDistXL then GetLocalPeer endpoints else rHost in
  {| mu_Addr := addr; Usage := memUsages; HistoricUsage := historicUsages |}.

(** One turn of the loop of [getLocalCPULoad]. *)
Definition cpuLoad_step (st : list L * list L * gset string)
    (endpoint : Endpoint) : list L * list L * gset string :=
  let '(cpuLoads, historicLoads, seenHosts) := st in
  if decide (Host endpoint ∈ seenHosts) then st
  else
    let seenHosts := seenHosts ∪ {[Host endpoint]} in
    if IsLocal endpoint then
      (cpuLoads ++ [cpu_GetLoad (length cpuLoads)],
       historicLoads ++ [cpu_GetHistoricLoad (length historicLoads)],
       seenHosts)
    else (cpuLoads, historicLoads, seenHosts).

Definition getLocalCPULoad (endpoints : list Endpoint) (rHost : string)
  : ServerCPULoadInfo L :=
  let '(cpuLoads, historicLoads, _) :=
    foldl cpuLoad_step ([], [], ∅) endpoints in
  let addr := if globalIsDistXL then GetLocalPeer endpoints else rHost in
  {| cl_Addr := addr; Load := cpuLoads; HistoricLoad := historicLoads |}.

(** The loop of [getLocalCPUInfo]: [seenHosts] is read and never
    added to; the first failing [cpuhw.Info()] ends the function.
    [asked] counts the calls to [cpuhw.Info()]. *)
Fixpoint cpuInfo_loop (seenHosts : gset string) (asked : nat)
    (cpuHardwares : list I) (endpoints : list Endpoint)
  : list I + string :=
  match endpoints with
  | [] => inl cpuHardwares
  | endpoint :: rest =>
      if decide (Host endpoint ∈ seenHosts)
      then cpuInfo_loop seenHosts asked cpuHardwares rest
      else if IsLocal endpoint then
        match cpuhw_Info asked with
        | inr err => inr err
        | inl cpuHardware =>
            cpuInfo_loop seenHosts (S asked) (cpuHardwares ++ cpuHardware) rest
        end
      else cpuInfo_loop seenHosts asked cpuHardwares rest
  end.

Definition getLocalCPUInfo (endpoints : list Endpoint) (rHost : string)
  : ServerCPUHardwareInfo I :=
  match cpuInfo_loop ∅ 0 [] endpoints with
  | inr err => {| ch_Addr := ""; ch_Error := err; CPUInfo := [] |}
  | inl cpuHardwares =>
      let addr := if globalIsDistXL then GetLocalPeer endpoints else rHost in
      {| ch_Addr := addr; ch_Error := ""; CPUInfo := cpuHardwares |}
  end.
End Functions.

(** The endpoints that are local, and the hosts of a list. *)
Definition locals (endpoints : list Endpoint) : list Endpoint :=
  filter (fun ep => IsLocal ep = true) endpoints.

Definition hosts (endpoints : list Endpoint) : gset string :=
  list_to_set (Host <$> endpoints).

End admin.

(** Two drives of one local host, and a drive of a remote one. *)
Definition ep_local1 : admin.Endpoint :=
  {| admin.Host := "a:9000"; admin.Path := "/d1"; admin.IsLocal := true |}.

Definition ep_local2 : admin.Endpoint :=
  {| admin.Host := "a:9000"; admin.Path := "/d2"; admin.IsLocal := true |}.

Definition ep_remote : admin.Endpoint :=
  {| admin.Host := "b:9000"; admin.Path := "/d1"; admin.IsLocal := false |}.

(** * Properties *)

(** ** One step at a time *)

Ltac unfold_monad :=
  unfold get_client, put_client, time_Now, time_NewTimer, errors_New,
    deref, panic, DrainBody in *;
  unfold mbind, M_bind, mret, M_ret in *.

Lemma bind_run {A B : Type} (m : M A) (k : A -> M B) (w : World) :
  (m ≫= k) w =
    match m w with
    | Ret a w' => k a w'
    | Panic msg => Panic msg
    end.
Proof. reflexivity. Qed.

Lemma run_op_restCall `{Env} (op : LockOp) (args : LockArgs) :
  run_op op args = restCall (method_of op) args.
Proof. by destruct op. Qed.

Lemma isHostUp_connected (w : World) :
  connected (client w) = true -> isHostUp w = Ret true w.
Proof. intros Hc. unfold isHostUp. unfold_monad. by rewrite Hc. Qed.

Lemma isHostUp_waiting (w : World) (t : Timer) :
  connected (client w) = false -> timer (client w) = Some t ->
  clock w < fires_at t -> isHostUp w = Ret false w.
Proof.
  intros Hc Ht Hlt. unfold isHostUp. unfold_monad. rewrite Hc, Ht.
  rewrite bool_decide_eq_false_2; [done | lia].
Qed.

Lemma isHostUp_fired (w : World) (t : Timer) :
  connected (client w) = false -> timer (client w) = Some t ->
  fires_at t <= clock w -> isHostUp w = Ret true (recovered w).
Proof.
  intros Hc Ht Hle. unfold isHostUp. unfold_monad. rewrite Hc, Ht.
  by rewrite bool_decide_eq_true_2.
Qed.

Lemma isHostUp_nil (w : World) :
  connected (client w) = false -> timer (client w) = None ->
  isHostUp w = Panic "invalid memory address or nil pointer dereference".
Proof. intros Hc Ht. unfold isHostUp. unfold_monad. by rewrite Hc, Ht. Qed.

(** A health check that says yes leaves the client connected, and has
    either found it so or has just received from its timer. *)
Lemma isHostUp_true_inv (w w1 : World) :
  isHostUp w = Ret true w1 ->
  connected (client w1) = true /\
  (w1 = w \/
   (w1 = recovered w /\ connected (client w) = false /\
    exists t, timer (client w) = Some t /\ fires_at t <= clock w)).
Proof.
  unfold isHostUp. unfold_monad.
  destruct (connected (client w)) eqn:Hc.
  - intros [= <-]. auto.
  - destruct (timer (client w)) as [t|] eqn:Ht; [|done].
    case_bool_decide as Hle; [|done].
    intros [= <-]. split; [done|]. right. repeat split; eauto.
Qed.

Lemma isHostUp_false_inv (w w1 : World) :
  isHostUp w = Ret false w1 ->
  w1 = w /\ connected (client w) = false /\
  exists t, timer (client w) = Some t /\ clock w < fires_at t.
Proof.
  unfold isHostUp. unfold_monad.
  destruct (connected (client w)) eqn:Hc; [done|].
  destruct (timer (client w)) as [t|] eqn:Ht; [|done].
  case_bool_decide as Hle; [done|].
  intros [= <-]. split; [done|]. split; [done|].
  exists t. split; [done|lia].
Qed.

Lemma markHostDown_connected `{Env} (w : World) :
  connected (client w) = true -> markHostDown w = Ret tt (tripped w).
Proof. intros Hc. unfold markHostDown. unfold_monad. by rewrite Hc. Qed.

Lemma markHostDown_down `{Env} (w : World) :
  connected (client w) = false -> markHostDown w = Ret tt w.
Proof. intros Hc. unfold markHostDown. unfold_monad. by rewrite Hc. Qed.

Lemma restCall_switch `{Env} (e : error) (w : World) :
  (match toLockError (Some e) with
   | None => mret (true, None)
   | Some e' =>
       if bool_decide (e' = errLockConflict \/ e' = errLockNotExpired)
       then mret (false, None) else mret (false, Some e')
   end : M (bool * option error)) w = Ret (reply_of e) w.
Proof.
  unfold toLockError, reply_of, mret, M_ret. simpl.
  destruct (decide (Error e = lockConflictText)) as [Hc|Hc].
  { rewrite !bool_decide_eq_true_2; auto. }
  destruct (decide (Error e = lockNotExpiredText)) as [Hn|Hn].
  { rewrite !bool_decide_eq_true_2; auto. }
  rewrite !bool_decide_eq_false_2; [done | tauto |].
  intros [-> | ->]; simpl in *; congruence.
Qed.

(** The short circuit: no transport call, a fresh error. *)
Lemma restCall_refused `{Env} (method : string) (args : LockArgs)
    (w : World) (t : Timer) :
  connected (client w) = false -> timer (client w) = Some t ->
  clock w < fires_at t ->
  restCall method args w =
    Ret (false, Some {| err_ptr := Heap (heap_next w); Error := errNodeDownText |})
        (refused w).
Proof.
  intros Hc Ht Hlt. unfold restCall, call.
  rewrite !bind_run, (isHostUp_waiting w t Hc Ht Hlt). simpl.
  unfold_monad. simpl. reflexivity.
Qed.

(** The attempt: one transport call, then the switch on its error. *)
Lemma restCall_attempt `{Env} (method : string) (args : LockArgs)
    (w w1 : World) :
  isHostUp w = Ret true w1 ->
  let inv := {| inv_method := method; inv_values := lockArgsValues args;
                inv_body := None; inv_length := -1 |} in
  let r := rest_Call (restClient (client w1)) (clock w1) inv in
  restCall method args w =
    match resp_err r with
    | None => Ret (true, None) (answered inv r w1)
    | Some e =>
        Ret (reply_of e)
            (if isNetworkError e then tripped (answered inv r w1)
             else answered inv r w1)
    end.
Proof.
  intros Hup inv r.
  destruct (isHostUp_true_inv w w1 Hup) as [Hc _].
  unfold restCall, call.
  rewrite !bind_run, Hup. simpl.
  rewrite bind_run. unfold restClient_Call.
  fold inv. fold r. fold (answered inv r w1).
  destruct (resp_err r) as [e|] eqn:He; [|by unfold_monad].
  rewrite bind_run.
  assert (Hm : (if isNetworkError e then markHostDown else mret tt) (answered inv r w1)
               = Ret tt (if isNetworkError e then tripped (answered inv r w1)
                         else answered inv r w1)).
  { destruct (isNetworkError e); [|done].
    by apply markHostDown_connected. }
  rewrite Hm. unfold DrainBody.
  unfold mbind, M_bind, mret, M_ret.
  exact (restCall_switch e _).
Qed.

(** ** The reply of an operation *)

(** C1.  Whichever of the six operations is called with whichever
    arguments, once its health check has passed the reply is decided by
    what the transport call returns: no error gives [(true, nil)]; an
    error whose text is the lock-conflict or the lock-not-expired text
    gives [(false, nil)], a denial; any other error gives [(false, err)]
    with that very error. *)
Theorem lock_ops_reply `{Env} (op : LockOp) (args : LockArgs) (w w1 : World) :
  isHostUp w = Ret true w1 ->
  exists w',
    run_op op args w =
      Ret (match resp_err (rest_Call (restClient (client w1)) (clock w1)
                                     (invocation_of op args)) with
           | None => (true, None)
           | Some e =>
               if bool_decide (Error e = lockConflictText \/
                               Error e = lockNotExpiredText)
               then (false, None)
               else (false, Some e)
           end) w'.
Proof.
  intros Hup. rewrite run_op_restCall.
  rewrite (restCall_attempt (method_of op) args w w1 Hup).
  fold (invocation_of op args).
  destruct (resp_err _) as [e|]; eauto.
Qed.

(** C2.  A client that is Down and whose retry deadline lies ahead
    answers every operation with [(false, err)], [err] carrying the
    node-is-down text; the client, and with it the transport's log, is
    what it was: the transport has not been called. *)
Theorem down_short_circuit `{Env} (op : LockOp) (args : LockArgs)
    (w : World) (t : Timer) :
  connected (client w) = false ->
  timer (client w) = Some t ->
  clock w < fires_at t ->
  exists e w',
    run_op op args w = Ret (false, Some e) w' /\
    Error e = errNodeDownText /\
    client w' = client w /\
    rc_log (restClient (client w')) = rc_log (restClient (client w)).
Proof.
  intros Hc Ht Hlt. rewrite run_op_restCall.
  rewrite (restCall_refused _ args w t Hc Ht Hlt).
  eexists _, _. split; [reflexivity|]. done.
Qed.

(** ** Tripping the breaker *)

(** C3.  An Up client whose transport call fails with a network error
    (one whose text is not a protocol text, so that it is not read as a
    denial) replies [(false, err)] and is left Down with a new timer that
    fires five retry units after the failure was seen.  Reporting a
    failure to a client that is already Down changes nothing: the
    deadline it has is kept. *)
Theorem network_failure_trips `{Env} (op : LockOp) (args : LockArgs)
    (w : World) (e : error) :
  let r := rest_Call (restClient (client w)) (clock w) (invocation_of op args) in
  connected (client w) = true ->
  resp_err r = Some e ->
  isNetworkError e = true ->
  Error e <> lockConflictText ->
  Error e <> lockNotExpiredText ->
  (exists w',
     run_op op args w = Ret (false, Some e) w' /\
     clock w' = clock w + Z.of_N (resp_elapsed r) /\
     connected (client w') = false /\
     timer (client w') = Some {| fires_at := clock w' + defaultRetryUnit * 5 |}) /\
  (forall w2, connected (client w2) = false -> markHostDown w2 = Ret tt w2).
Proof.
  intros r Hc He Hnet Hn1 Hn2. split.
  - rewrite run_op_restCall.
    rewrite (restCall_attempt _ args w w (isHostUp_connected w Hc)).
    fold (invocation_of op args). fold r. rewrite He, Hnet.
    unfold reply_of. rewrite bool_decide_eq_false_2 by tauto.
    eexists. split; [reflexivity|]. done.
  - apply @markHostDown_down.
Qed.

Lemma lock_ops_reply_witness :
  isHostUp (up_world env_deny) = Ret true (up_world env_deny) /\
  exists w', @run_op env_deny OpLock args1 (up_world env_deny)
             = Ret (false, None) w'.
Proof.
  split; [reflexivity|].
  exact (@lock_ops_reply env_deny OpLock args1 (up_world env_deny)
           (up_world env_deny) eq_refl).
Defined.

Lemma down_short_circuit_witness :
  exists e w',
    @run_op env_grant OpRUnlock args1 (down_world env_grant)
      = Ret (false, Some e) w' /\
    Error e = errNodeDownText /\
    client w' = client (down_world env_grant) /\
    rc_log (restClient (client w')) = [].
Proof.
  apply (@down_short_circuit env_grant OpRUnlock args1 (down_world env_grant)
           {| fires_at := 5 * second |}); [reflexivity | reflexivity |].
  vm_compute. reflexivity.
Defined.

Lemma network_failure_trips_witness :
  (exists w',
     @run_op env_netfail OpLock args1 (up_world env_netfail)
       = Ret (false, Some {| err_ptr := Heap 8; Error := "connection refused" |}) w' /\
     clock w' = 0 + Z.of_N 2000000000 /\
     connected (client w') = false /\
     timer (client w') = Some {| fires_at := clock w' + second * 5 |}) /\
  (forall w2, connected (client w2) = false ->
              @markHostDown env_netfail w2 = Ret tt w2).
Proof.
  apply (@network_failure_trips env_netfail OpLock args1 (up_world env_netfail)
           {| err_ptr := Heap 8; Error := "connection refused" |});
    [reflexivity | reflexivity | reflexivity | | ]; vm_compute; discriminate.
Defined.

(** ** After the backoff window *)

Lemma total_wait_nonneg (cs : list (N * LockOp * LockArgs)) : 0 <= total_wait cs.
Proof. induction cs as [|[[d op] args] cs IH]; simpl; lia. Qed.

(** An attempt adds exactly its own call to the transport's log. *)
Lemma restCall_attempt_log `{Env} (method : string) (args : LockArgs)
    (w w1 : World) :
  isHostUp w = Ret true w1 ->
  exists r w',
    restCall method args w = Ret r w' /\
    rc_log (restClient (client w')) =
      rc_log (restClient (client w)) ++
      [{| inv_method := method; inv_values := lockArgsValues args;
          inv_body := None; inv_length := -1 |}] /\
    rc_closed (restClient (client w')) = rc_closed (restClient (client w)).
Proof.
  intros Hup. rewrite (restCall_attempt method args w w1 Hup).
  assert (Hrc : restClient (client w1) = restClient (client w)).
  { destruct (isHostUp_true_inv w w1 Hup) as [_ [-> | [-> _]]]; done. }
  destruct (resp_err _) as [e|].
  - eexists _, _. split; [reflexivity|].
    destruct (isNetworkError e); simpl; by rewrite Hrc.
  - eexists _, _. split; [reflexivity|]. simpl. by rewrite Hrc.
Qed.

(** Calls made while the deadline lies ahead are all refused and leave
    the client as it is, however many they are. *)
Lemma run_calls_refused `{Env} (cs : list (N * LockOp * LockArgs)) :
  forall (w : World) (t : Timer),
    connected (client w) = false ->
    timer (client w) = Some t ->
    clock w + total_wait cs < fires_at t ->
    exists rs w1,
      run_calls cs w = Ret rs w1 /\
      length rs = length cs /\
      Forall (fun r => exists e, r = (false, Some e) /\ Error e = errNodeDownText) rs /\
      client w1 = client w /\
      clock w1 = clock w + total_wait cs.
Proof.
  induction cs as [|[[d op] args] cs IH]; intros w t Hc Ht Hlt.
  - exists [], w. simpl in *. repeat split; [constructor | lia].
  - simpl in Hlt. pose proof (total_wait_nonneg cs) as Hnn.
    set (w0 := {| clock := clock w + Z.of_N d; heap_next := heap_next w;
                  client := client w |}).
    assert (Hr : run_op op args w0 =
                 Ret (false, Some {| err_ptr := Heap (heap_next w0);
                                     Error := errNodeDownText |}) (refused w0)).
    { rewrite run_op_restCall. apply (restCall_refused _ _ w0 t); simpl; [done..|lia]. }
    destruct (IH (refused w0) t) as (rs & w1 & Hrun & Hlen & Hall & Hcl & Hck);
      simpl; [done | done | lia |].
    exists ((false, Some {| err_ptr := Heap (heap_next w0);
                            Error := errNodeDownText |}) :: rs), w1.
    split.
    { simpl. rewrite bind_run. unfold sleep. fold w0.
      rewrite bind_run, Hr, bind_run, Hrun. reflexivity. }
    simpl in *. repeat split; [by rewrite Hlen | | done | lia].
    constructor; [eauto | done].
Qed.

(** C4.  A Down client is called any number of times, at any moments
    before its deadline, and then once at or after the deadline.  None of
    the early calls reaches the transport, each is refused with the
    node-is-down error; the late call does reach it: when it returns, the
    transport's log has grown by that one call and by nothing else. *)
Theorem retry_after_backoff `{Env} (cs : list (N * LockOp * LockArgs))
    (d : N) (op : LockOp) (args : LockArgs) (w : World) (t : Timer) :
  connected (client w) = false ->
  timer (client w) = Some t ->
  clock w + total_wait cs < fires_at t ->
  fires_at t <= clock w + total_wait cs + Z.of_N d ->
  exists rs w1 r w2,
    run_calls cs w = Ret rs w1 /\
    length rs = length cs /\
    Forall (fun r => exists e, r = (false, Some e) /\ Error e = errNodeDownText) rs /\
    rc_log (restClient (client w1)) = rc_log (restClient (client w)) /\
    (sleep d;; run_op op args) w1 = Ret r w2 /\
    rc_log (restClient (client w2)) =
      rc_log (restClient (client w)) ++ [invocation_of op args].
Proof.
  intros Hc Ht Hlt Hge.
  destruct (run_calls_refused cs w t Hc Ht Hlt)
    as (rs & w1 & Hrun & Hlen & Hall & Hcl & Hck).
  set (w1' := {| clock := clock w1 + Z.of_N d; heap_next := heap_next w1;
                 client := client w1 |}).
  assert (Hup : isHostUp w1' = Ret true (recovered w1')).
  { apply (isHostUp_fired w1' t); simpl; rewrite ?Hcl; [done..|lia]. }
  destruct (restCall_attempt_log (method_of op) args w1' _ Hup)
    as (r & w2 & Hop & Hlog & _).
  exists rs, w1, r, w2. repeat split; [done.. | by rewrite Hcl | |].
  - rewrite bind_run. unfold sleep. fold w1'. by rewrite run_op_restCall.
  - rewrite Hlog. simpl. by rewrite Hcl.
Qed.

Lemma retry_after_backoff_witness :
  exists rs w1 r w2,
    @run_calls env_grant [(0%N, OpLock, args1); (1000000000%N, OpRLock, args1)]
      (down_world env_grant) = Ret rs w1 /\
    length rs = 2%nat /\
    Forall (fun r => exists e, r = (false, Some e) /\ Error e = errNodeDownText) rs /\
    rc_log (restClient (client w1)) = [] /\
    (sleep 4000000000;; @run_op env_grant OpExpired args1) w1 = Ret r w2 /\
    rc_log (restClient (client w2)) = [] ++ [invocation_of OpExpired args1].
Proof.
  apply (@retry_after_backoff env_grant
           [(0%N, OpLock, args1); (1000000000%N, OpRLock, args1)]
           4000000000 OpExpired args1 (down_world env_grant)
           {| fires_at := 5 * second |});
    [reflexivity | reflexivity | vm_compute; reflexivity
    | vm_compute; discriminate].
Defined.

(** ** Construction *)

(** C5, as the code has it.  When the transport cannot be built the
    constructor still returns a client; it is Down, and its timer fires
    five retry units after the construction. *)
Theorem construction_failure_starts_down `{Env} (now : Z) (peer : Host)
    (err : error) :
  rest_NewClient (peerURL peer) (peerTLS peer) = Some err ->
  connected (newlockRESTClient now peer) = false /\
  timer (newlockRESTClient now peer)
    = Some {| fires_at := now + defaultRetryUnit * 5 |} /\
  host (newlockRESTClient now peer) = peer /\
  serverURL (newlockRESTClient now peer) = peerURL peer.
Proof. intros Hnew. unfold newlockRESTClient. by rewrite Hnew. Qed.

Lemma construction_failure_starts_down_witness :
  connected (@newlockRESTClient env_grant 0 nopeer) = false /\
  timer (@newlockRESTClient env_grant 0 nopeer)
    = Some {| fires_at := 0 + second * 5 |} /\
  host (@newlockRESTClient env_grant 0 nopeer) = nopeer /\
  serverURL (@newlockRESTClient env_grant 0 nopeer) = @peerURL env_grant nopeer.
Proof.
  apply (@construction_failure_starts_down env_grant 0 nopeer
           {| err_ptr := Heap 0; Error := "empty host" |}).
  reflexivity.
Defined.

(** C5, as it is worded, fails: the deadline of a client whose transport
    could not be built is not the moment of construction.  With a retry
    unit of one second it lies five seconds ahead. *)
Lemma construction_deadline_not_immediate :
  ~ (forall (E : Env) (now : Z) (peer : Host) (err : error),
       @rest_NewClient E (@peerURL E peer) (@peerTLS E peer) = Some err ->
       connected (@newlockRESTClient E now peer) = false /\
       exists t, timer (@newlockRESTClient E now peer) = Some t /\
                 fires_at t <= now).
Proof.
  intros Hclaim.
  destruct (Hclaim env_grant 0 nopeer
              {| err_ptr := Heap 0; Error := "empty host" |} eq_refl)
    as (_ & t & Ht & Hle).
  injection Ht as <-. vm_compute in Hle. by apply Hle.
Qed.

(** ** Close *)

Lemma Close_run (w : World) :
  Close w =
    Ret None
        (with_client
           (set_restClient {| rc_log := rc_log (restClient (client w));
                              rc_closed := true |}
                           (set_connected false (client w))) w).
Proof. reflexivity. Qed.

Lemma restCall_nil `{Env} (method : string) (args : LockArgs) (w : World) :
  connected (client w) = false -> timer (client w) = None ->
  restCall method args w
    = Panic "invalid memory address or nil pointer dereference".
Proof.
  intros Hc Ht. unfold restCall, call.
  by rewrite !bind_run, (isHostUp_nil w Hc Ht).
Qed.

(** C6, on the code.  A client goes Down on a network failure, is closed,
    and is called again once its timer has fired: the call goes to the
    transport of the closed client and the client is Up again. *)
Lemma closed_client_comes_back :
  exists w',
    (@Lock env_netfail args1;; Close;; sleep 6000000000;;
     @RLock env_netfail args1) (up_world env_netfail)
      = Ret (true, None) w' /\
    connected (client w') = true /\
    rc_closed (restClient (client w')) = true /\
    rc_log (restClient (client w'))
      = [invocation_of OpLock args1; invocation_of OpRLock args1].
Proof. eexists. vm_compute. repeat split. Qed.

(** ** The health state and errors that are not network failures *)

(** C7, as the code has it.  When the transport returns an error that is
    not a network failure, nothing after the health check touches the
    connected flag or the timer: they are as the health check left them,
    and so, for a client that was Up, as they were before the call. *)
Theorem other_errors_keep_health `{Env} (op : LockOp) (args : LockArgs)
    (w w1 : World) (e : error) :
  isHostUp w = Ret true w1 ->
  resp_err (rest_Call (restClient (client w1)) (clock w1)
                      (invocation_of op args)) = Some e ->
  isNetworkError e = false ->
  exists w',
    run_op op args w = Ret (reply_of e) w' /\
    connected (client w') = connected (client w1) /\
    timer (client w') = timer (client w1) /\
    (connected (client w) = true ->
     connected (client w') = connected (client w) /\
     timer (client w') = timer (client w)).
Proof.
  intros Hup He Hnet. rewrite run_op_restCall.
  rewrite (restCall_attempt _ args w w1 Hup).
  fold (invocation_of op args). rewrite He, Hnet.
  eexists. split; [reflexivity|]. simpl. repeat split.
  - destruct (isHostUp_true_inv w w1 Hup) as [_ [-> | (_ & Hd & _)]];
      [done | congruence].
  - destruct (isHostUp_true_inv w w1 Hup) as [_ [-> | (_ & Hd & _)]];
      [done | congruence].
Qed.

Lemma other_errors_keep_health_witness :
  exists w',
    @run_op env_deny OpLock args1 (up_world env_deny)
      = Ret (false, None) w' /\
    connected (client w') = true /\
    timer (client w') = None /\
    (true = true ->
     connected (client w') = true /\ timer (client w') = None).
Proof.
  apply (@other_errors_keep_health env_deny OpLock args1 (up_world env_deny)
           (up_world env_deny) {| err_ptr := Heap 7; Error := "lock conflict" |});
    reflexivity.
Defined.

(** C7, as it is worded, fails: a Down client whose timer has fired is
    made Up by the health check of the call, so a denial that follows
    finds the flag and the timer changed by the time the call returns. *)
Lemma denial_after_recovery_changes_health :
  ~ (forall (E : Env) (op : LockOp) (args : LockArgs) (w w1 w' : World)
            (e : error) (r : bool * option error),
       isHostUp w = Ret true w1 ->
       resp_err (@rest_Call E (restClient (client w1)) (clock w1)
                            (invocation_of op args)) = Some e ->
       @isNetworkError E e = false ->
       @run_op E op args w = Ret r w' ->
       connected (client w') = connected (client w) /\
       timer (client w') = timer (client w)).
Proof.
  intros Hclaim.
  set (w := world_of (5 * second) (client (down_world env_deny))).
  destruct (Hclaim env_deny OpLock args1 w (recovered w)
              (@answered (invocation_of OpLock args1)
                 (failing 7 "lock conflict" 0) (recovered w))
              {| err_ptr := Heap 7; Error := "lock conflict" |}
              (false, None) eq_refl eq_refl eq_refl eq_refl) as [Hc _].
  discriminate Hc.
Qed.

(** ** The error mapping *)

(** C8.  The two protocol texts being different texts: an error whose
    text is the lock-conflict text becomes [errLockConflict], one whose
    text is the lock-not-expired text becomes [errLockNotExpired],
    whatever value carried the text; every other error comes back as it
    is; nil stays nil. *)
Theorem toLockError_by_text `{Env} :
  lockConflictText <> lockNotExpiredText ->
  toLockError None = None /\
  forall e : error,
    (Error e = lockConflictText -> toLockError (Some e) = Some errLockConflict) /\
    (Error e = lockNotExpiredText ->
     toLockError (Some e) = Some errLockNotExpired) /\
    (Error e <> lockConflictText -> Error e <> lockNotExpiredText ->
     toLockError (Some e) = Some e).
Proof.
  intros Hne. split; [done|]. intros e. unfold toLockError. simpl.
  repeat split.
  - intros ->. by rewrite decide_True.
  - intros He. rewrite decide_False by congruence. by rewrite decide_True.
  - intros H1 H2. by rewrite !decide_False.
Qed.

Lemma toLockError_by_text_witness :
  @toLockError env_grant None = None /\
  forall e : error,
    (Error e = "lock conflict" ->
     @toLockError env_grant (Some e) = Some (@errLockConflict env_grant)) /\
    (Error e = "lock not expired" ->
     @toLockError env_grant (Some e) = Some (@errLockNotExpired env_grant)) /\
    (Error e <> "lock conflict" -> Error e <> "lock not expired" ->
     @toLockError env_grant (Some e) = Some e).
Proof.
  apply (@toLockError_by_text env_grant). vm_compute. discriminate.
Defined.

(** ** What goes to the transport *)

(** The form values of a request: the five fields, each under its own
    key, and nothing else. *)
Lemma lockArgsValues_lookup (args : LockArgs) (k : string) :
  lockArgsValues args !! k =
    if decide (k = lockRESTUID) then Some [UID args]
    else if decide (k = lockRESTSource) then Some [Source args]
    else if decide (k = lockRESTResource) then Some [Resource args]
    else if decide (k = lockRESTServerAddr) then Some [ServerAddr args]
    else if decide (k = lockRESTServerEndpoint) then Some [ServiceEndpoint args]
    else None.
Proof.
  unfold lockArgsValues, Values_Set.
  repeat case_decide; simplify_map_eq; done.
Qed.

Lemma lockArgsValues_size (args : LockArgs) : size (lockArgsValues args) = 5%nat.
Proof.
  unfold lockArgsValues, Values_Set.
  rewrite !map_size_insert_None, map_size_empty; [done|..];
    simplify_map_eq; done.
Qed.

Lemma method_of_inj (op op' : LockOp) : method_of op = method_of op' -> op = op'.
Proof. destruct op, op'; simpl; intros Heq; first [done | discriminate Heq]. Qed.

(** C9, as the code has it.  An operation whose health check passes
    calls the transport exactly once, with the operation's own method
    name, no body, length -1 and, as values, the five fields of the
    arguments, one string under each of five keys; no two operations
    share a method name. *)
Theorem one_call_per_attempt `{Env} (op : LockOp) (args : LockArgs)
    (w w1 : World) :
  isHostUp w = Ret true w1 ->
  (exists r w' inv,
     run_op op args w = Ret r w' /\
     rc_log (restClient (client w')) = rc_log (restClient (client w)) ++ [inv] /\
     inv_method inv = method_of op /\
     inv_body inv = None /\
     inv_length inv = -1 /\
     inv_values inv !! lockRESTUID = Some [UID args] /\
     inv_values inv !! lockRESTSource = Some [Source args] /\
     inv_values inv !! lockRESTResource = Some [Resource args] /\
     inv_values inv !! lockRESTServerAddr = Some [ServerAddr args] /\
     inv_values inv !! lockRESTServerEndpoint = Some [ServiceEndpoint args] /\
     size (inv_values inv) = 5%nat) /\
  (forall op' : LockOp, method_of op' = method_of op -> op' = op).
Proof.
  intros Hup. split; [|intros op'; apply method_of_inj].
  destruct (restCall_attempt_log (method_of op) args w w1 Hup)
    as (r & w' & Hrun & Hlog & _).
  exists r, w', (invocation_of op args).
  rewrite run_op_restCall. split; [done|]. split; [done|].
  simpl. rewrite !lockArgsValues_lookup, lockArgsValues_size. done.
Qed.

Lemma one_call_per_attempt_witness :
  (exists r w' inv,
     @run_op env_grant OpUnlock args1 (up_world env_grant) = Ret r w' /\
     rc_log (restClient (client w')) = [] ++ [inv] /\
     inv_method inv = "release-exclusive" /\
     inv_body inv = None /\
     inv_length inv = -1 /\
     inv_values inv !! lockRESTUID = Some ["u-1"] /\
     inv_values inv !! lockRESTSource = Some ["main.go:10"] /\
     inv_values inv !! lockRESTResource = Some ["bucket/obj"] /\
     inv_values inv !! lockRESTServerAddr = Some ["node2:9000"] /\
     inv_values inv !! lockRESTServerEndpoint = Some ["/minio/lock/v2"] /\
     size (inv_values inv) = 5%nat) /\
  (forall op' : LockOp, method_of op' = method_of OpUnlock -> op' = OpUnlock).
Proof.
  apply (@one_call_per_attempt env_grant OpUnlock args1 (up_world env_grant)
           (up_world env_grant)).
  reflexivity.
Defined.

(** C9, as it is worded, fails: a Down client whose deadline lies ahead
    returns without any call to the transport. *)
Lemma refused_call_reaches_no_transport :
  ~ (forall (E : Env) (op : LockOp) (args : LockArgs) (w : World),
       exists r w',
         @run_op E op args w = Ret r w' /\
         rc_log (restClient (client w'))
           = rc_log (restClient (client w)) ++ [invocation_of op args]).
Proof.
  intros Hclaim.
  destruct (Hclaim env_grant OpLock args1 (down_world env_grant))
    as (r & w' & Hrun & Hlog).
  vm_compute in Hrun. injection Hrun as _ <-. discriminate Hlog.
Qed.

(** ** A closed client with no timer *)

(** C10.  A client built with a working transport has no timer; [Close]
    makes it Down and leaves it without one.  From then on, at whatever
    later time, the health check and each of the six operations end in a
    nil-pointer panic and give no answer. *)
Theorem closed_client_health_check_panics `{Env} (now : Z) (peer : Host)
    (w : World) :
  rest_NewClient (peerURL peer) (peerTLS peer) = None ->
  client w = newlockRESTClient now peer ->
  exists w',
    Close w = Ret None w' /\
    connected (client w') = false /\
    timer (client w') = None /\
    forall (d : N) (op : LockOp) (args : LockArgs),
      (sleep d;; isHostUp) w'
        = Panic "invalid memory address or nil pointer dereference" /\
      (sleep d;; run_op op args) w'
        = Panic "invalid memory address or nil pointer dereference".
Proof.
  intros Hnew Hcl. rewrite Close_run. eexists. split; [reflexivity|].
  assert (Ht : timer (client w) = None).
  { rewrite Hcl. unfold newlockRESTClient. by rewrite Hnew. }
  simpl. split; [done|]. split; [done|]. intros d op args.
  rewrite !bind_run. unfold sleep. split.
  - by apply isHostUp_nil.
  - rewrite run_op_restCall. by apply restCall_nil.
Qed.

Lemma closed_client_health_check_panics_witness :
  exists w',
    Close (up_world env_grant) = Ret None w' /\
    connected (client w') = false /\
    timer (client w') = None /\
    forall (d : N) (op : LockOp) (args : LockArgs),
      (sleep d;; isHostUp) w'
        = Panic "invalid memory address or nil pointer dereference" /\
      (sleep d;; @run_op env_grant op args) w'
        = Panic "invalid memory address or nil pointer dereference".
Proof.
  apply (@closed_client_health_check_panics env_grant 0 peer1
           (up_world env_grant)); reflexivity.
Defined.

(** * Further properties of the client *)

(** ** The three ways a call can go *)

Lemma isHostUp_cases (w : World) :
  (connected (client w) = false /\ timer (client w) = None /\
   isHostUp w = Panic "invalid memory address or nil pointer dereference") \/
  (exists t, connected (client w) = false /\ timer (client w) = Some t /\
             clock w < fires_at t /\ isHostUp w = Ret false w) \/
  (exists w1, isHostUp w = Ret true w1).
Proof.
  destruct (connected (client w)) eqn:Hc.
  { right. right. exists w. by apply isHostUp_connected. }
  destruct (timer (client w)) as [t|] eqn:Ht.
  - destruct (Z_lt_le_dec (clock w) (fires_at t)) as [Hlt|Hle].
    + right. left. exists t. repeat split; [done..|].
      by apply (isHostUp_waiting w t).
    + right. right. exists (recovered w). by apply (isHostUp_fired w t).
  - left. repeat split; [done..|]. by apply isHostUp_nil.
Qed.

Lemma restCall_returns_inv `{Env} (method : string) (args : LockArgs)
    (w w' : World) (r : bool * option error) :
  restCall method args w = Ret r w' ->
  (exists t, connected (client w) = false /\ timer (client w) = Some t /\
             clock w < fires_at t /\
             r = (false, Some {| err_ptr := Heap (heap_next w);
                                 Error := errNodeDownText |}) /\
             w' = refused w) \/
  (exists w1, isHostUp w = Ret true w1).
Proof.
  intros Hrun.
  destruct (isHostUp_cases w) as [(Hc & Ht & _) | [(t & Hc & Ht & Hlt & _) | Hup]].
  - by rewrite (restCall_nil method args w Hc Ht) in Hrun.
  - left. exists t. rewrite (restCall_refused method args w t Hc Ht Hlt) in Hrun.
    injection Hrun as <- <-. done.
  - by right.
Qed.

(** ** Calls alone never panic *)





(** ** One call, one transport call at most *)

Lemma run_op_frame `{Env} (op : LockOp) (args : LockArgs)
    (w w' : World) (r : bool * option error) :
  run_op op args w = Ret r w' ->
  (rc_log (restClient (client w')) = rc_log (restClient (client w)) \/
   rc_log (restClient (client w'))
     = rc_log (restClient (client w)) ++ [invocation_of op args]) /\
  rc_closed (restClient (client w')) = rc_closed (restClient (client w)) /\
  host (client w') = host (client w) /\
  serverURL (client w') = serverURL (client w).
Proof.
  rewrite run_op_restCall. intros Hrun.
  destruct (restCall_returns_inv _ _ _ _ _ Hrun)
    as [(t & _ & _ & _ & _ & ->) | [w1 Hup]].
  { simpl. auto. }
  rewrite (restCall_attempt _ args w w1 Hup) in Hrun.
  assert (Hw1 : restClient (client w1) = restClient (client w) /\
                host (client w1) = host (client w) /\
                serverURL (client w1) = serverURL (client w)).
  { destruct (isHostUp_true_inv w w1 Hup) as [_ [-> | [-> _]]]; done. }
  destruct Hw1 as (Hrc & Hh & Hu).
  destruct (resp_err _) as [e|].
  - injection Hrun as _ <-.
    destruct (isNetworkError e); simpl; rewrite Hrc; auto.
  - injection Hrun as _ <-. simpl. rewrite Hrc. auto.
Qed.

(** X2.  A lock call that returns has added to the transport's log its
    own call, once, or nothing: it never repeats a call and never
    touches what was logged before; neither the closed mark of the
    transport nor the client's host and URL change. *)
Theorem lock_call_logs_at_most_once `{Env} (op : LockOp) (args : LockArgs)
    (w w' : World) (r : bool * option error) :
  run_op op args w = Ret r w' ->
  (rc_log (restClient (client w')) = rc_log (restClient (client w)) \/
   rc_log (restClient (client w'))
     = rc_log (restClient (client w)) ++ [invocation_of op args]) /\
  rc_closed (restClient (client w')) = rc_closed (restClient (client w)) /\
  host (client w') = host (client w) /\
  serverURL (client w') = serverURL (client w).
Proof. apply run_op_frame. Qed.

Lemma lock_call_logs_at_most_once_witness :
  (rc_log (restClient (client (refused (down_world env_grant))))
     = rc_log (restClient (client (down_world env_grant))) \/
   rc_log (restClient (client (refused (down_world env_grant))))
     = rc_log (restClient (client (down_world env_grant)))
         ++ [invocation_of OpLock args1]) /\
  rc_closed (restClient (client (refused (down_world env_grant))))
    = rc_closed (restClient (client (down_world env_grant))) /\
  host (client (refused (down_world env_grant)))
    = host (client (down_world env_grant)) /\
  serverURL (client (refused (down_world env_grant)))
    = serverURL (client (down_world env_grant)).
Proof.
  apply (@lock_call_logs_at_most_once env_grant OpLock args1
           (down_world env_grant) (refused (down_world env_grant))
           (false, Some {| err_ptr := Heap 0; Error := errNodeDownText |})).
  reflexivity.
Defined.

(** ** The shape of a reply *)

(** X3.  Whatever a lock call returns, a grant carries no error, and the
    error of a failure is never one of the two protocol error values:
    those only ever reach the caller as a denial. *)
Theorem lock_reply_shape `{Env} (op : LockOp) (args : LockArgs)
    (w w' : World) (reply : bool) (err : option error) :
  run_op op args w = Ret (reply, err) w' ->
  (reply = true -> err = None) /\
  err <> Some errLockConflict /\
  err <> Some errLockNotExpired.
Proof.
  rewrite run_op_restCall. intros Hrun.
  destruct (restCall_returns_inv _ _ _ _ _ Hrun)
    as [(t & _ & _ & _ & [= -> ->] & _) | [w1 Hup]].
  { repeat split; done. }
  rewrite (restCall_attempt _ args w w1 Hup) in Hrun.
  destruct (resp_err _) as [e|].
  - injection Hrun as Hr _. unfold reply_of in Hr.
    case_bool_decide as Htxt; injection Hr as <- <-;
      repeat split; try done.
    + intros [= ->]. apply Htxt. by left.
    + intros [= ->]. apply Htxt. by right.
  - injection Hrun as <- <- _. done.
Qed.

Lemma lock_reply_shape_witness :
  (true = true -> @None error = None) /\
  None <> Some (@errLockConflict env_grant) /\
  None <> Some (@errLockNotExpired env_grant).
Proof.
  apply (@lock_reply_shape env_grant OpLock args1 (up_world env_grant)
           (answered (invocation_of OpLock args1) granted (up_world env_grant))
           true None).
  reflexivity.
Defined.

(** ** The backoff window *)

(** X4.  An Up client sees a network failure.  Whatever calls follow,
    as long as less than five retry units pass after the failure was
    seen, all are refused with the node-is-down error and the transport
    gets nothing after the failed call. *)
Theorem calls_in_window_refused `{Env} (op : LockOp) (args : LockArgs)
    (cs : list (N * LockOp * LockArgs)) (w : World) (e : error) :
  let r := rest_Call (restClient (client w)) (clock w) (invocation_of op args) in
  connected (client w) = true ->
  resp_err r = Some e ->
  isNetworkError e = true ->
  total_wait cs < defaultRetryUnit * 5 ->
  exists x rs w',
    (x ← run_op op args; rs ← run_calls cs; mret (x, rs)) w
      = Ret (x, rs) w' /\
    length rs = length cs /\
    Forall (fun r => exists e, r = (false, Some e) /\ Error e = errNodeDownText) rs /\
    rc_log (restClient (client w'))
      = rc_log (restClient (client w)) ++ [invocation_of op args] /\
    connected (client w') = false /\
    timer (client w')
      = Some {| fires_at := clock w + Z.of_N (resp_elapsed r) + defaultRetryUnit * 5 |}.
Proof.
  intros r Hc He Hnet Hlt.
  pose proof (restCall_attempt (method_of op) args w w (isHostUp_connected w Hc))
    as Hop.
  cbv zeta in Hop. fold (invocation_of op args) in Hop. fold r in Hop.
  rewrite He, Hnet in Hop.
  set (w1 := tripped (answered (invocation_of op args) r w)) in *.
  destruct (run_calls_refused cs w1
              {| fires_at := clock w + Z.of_N (resp_elapsed r) + defaultRetryUnit * 5 |})
    as (rs & w' & Hrun & Hlen & Hall & Hcl & _); [done | done | simpl; lia |].
  exists (reply_of e), rs, w'. split.
  { rewrite bind_run, run_op_restCall, Hop, bind_run, Hrun. reflexivity. }
  rewrite Hcl. simpl. done.
Qed.

Lemma calls_in_window_refused_witness :
  exists x rs w',
    (x ← @run_op env_netfail OpLock args1;
     rs ← @run_calls env_netfail [(4000000000%N, OpRLock, args1)];
     mret (x, rs)) (up_world env_netfail) = Ret (x, rs) w' /\
    length rs = 1%nat /\
    Forall (fun r => exists e, r = (false, Some e) /\ Error e = errNodeDownText) rs /\
    rc_log (restClient (client w')) = [] ++ [invocation_of OpLock args1] /\
    connected (client w') = false /\
    timer (client w')
      = Some {| fires_at := 0 + Z.of_N 2000000000 + second * 5 |}.
Proof.
  apply (@calls_in_window_refused env_netfail OpLock args1
           [(4000000000%N, OpRLock, args1)] (up_world env_netfail)
           {| err_ptr := Heap 8; Error := "connection refused" |});
    [reflexivity | reflexivity | reflexivity | vm_compute; reflexivity].
Defined.

(** ** The probe *)

(** X5.  The first call at or after the deadline of a Down client is a
    probe.  If the transport answers it, with a grant or with any error
    that is not a network failure, the client is Up again and has no
    timer; if it fails on the network, the client is Down again with a
    new timer, five retry units after this failure. *)
Theorem probe_decides_health `{Env} (op : LockOp) (args : LockArgs)
    (w : World) (t : Timer) :
  let r := rest_Call (restClient (client w)) (clock w) (invocation_of op args) in
  connected (client w) = false ->
  timer (client w) = Some t ->
  fires_at t <= clock w ->
  exists x w',
    run_op op args w = Ret x w' /\
    if match resp_err r with Some e => isNetworkError e | None => false end
    then connected (client w') = false /\
         timer (client w')
           = Some {| fires_at := clock w + Z.of_N (resp_elapsed r)
                                 + defaultRetryUnit * 5 |}
    else connected (client w') = true /\ timer (client w') = None.
Proof.
  intros r Hc Ht Hle. rewrite run_op_restCall.
  rewrite (restCall_attempt _ args w (recovered w) (isHostUp_fired w t Hc Ht Hle)).
  fold (invocation_of op args). simpl. fold r.
  destruct (resp_err r) as [e|].
  - eexists _, _. split; [reflexivity|]. by destruct (isNetworkError e).
  - eexists _, _. split; [reflexivity|]. done.
Qed.

Lemma probe_decides_health_witness :
  exists x w',
    @run_op env_netfail OpExpired args1
      (world_of (5 * second) (client (down_world env_netfail))) = Ret x w' /\
    connected (client w') = false /\
    timer (client w')
      = Some {| fires_at := 5 * second + Z.of_N 2000000000 + second * 5 |}.
Proof.
  apply (@probe_decides_health env_netfail OpExpired args1
           (world_of (5 * second) (client (down_world env_netfail)))
           {| fires_at := 5 * second |});
    [reflexivity | reflexivity | vm_compute; discriminate].
Defined.

(** ** Close *)

(** X6.  [Close] always returns nil.  It sets the client offline and
    marks the transport closed; the timer, the transport's log, the host
    and the URL are kept.  Closing twice is closing once. *)
Theorem Close_frame_idempotent (w : World) :
  exists w',
    Close w = Ret None w' /\
    IsOnline (client w') = false /\
    rc_closed (restClient (client w')) = true /\
    timer (client w') = timer (client w) /\
    rc_log (restClient (client w')) = rc_log (restClient (client w)) /\
    host (client w') = host (client w) /\
    serverURL (client w') = serverURL (client w) /\
    Close w' = Ret None w'.
Proof. eexists. split; [apply Close_run|]. done. Qed.

(** ** A whole life *)

Lemma run_step_keeps `{Env} (s : Step) (w w' : World) :
  run_step s w = Ret tt w' ->
  host (client w') = host (client w) /\
  serverURL (client w') = serverURL (client w) /\
  rc_log (restClient (client w)) `prefix_of` rc_log (restClient (client w')) /\
  (length (rc_log (restClient (client w')))
     <= length (rc_log (restClient (client w)))
        + match s with StepOp _ _ => 1 | _ => 0 end)%nat /\
  (rc_closed (restClient (client w)) = true ->
   rc_closed (restClient (client w')) = true).
Proof.
  destruct s as [op args | d |]; simpl.
  - rewrite bind_run. destruct (run_op op args w) as [r w1|] eqn:Hr; [|done].
    intros [= <-].
    destruct (run_op_frame op args w w1 r Hr)
      as ([-> | ->] & -> & -> & ->); repeat split; try done.
    + lia.
    + by apply prefix_app_r.
    + rewrite length_app. simpl. lia.
  - intros [= <-]. simpl. repeat split; [done | lia | done].
  - intros [= <-]. simpl. repeat split; [done | lia].
Qed.

(** X7.  Over any sequence of lock calls, waits and closes that runs to
    its end, the client's address, service endpoint and name stay what
    they were; the transport's log only grows at its end, by one call
    per lock call at most; and a closed transport stays closed. *)
Theorem life_keeps_identity `{Env} (ss : list Step) (w w' : World) :
  run_steps ss w = Ret tt w' ->
  ServerAddr_of (client w') = ServerAddr_of (client w) /\
  ServiceEndpoint_of (client w') = ServiceEndpoint_of (client w) /\
  String_of (client w') = String_of (client w) /\
  rc_log (restClient (client w)) `prefix_of` rc_log (restClient (client w')) /\
  (length (rc_log (restClient (client w')))
     <= length (rc_log (restClient (client w))) + count_ops ss)%nat /\
  (rc_closed (restClient (client w)) = true ->
   rc_closed (restClient (client w')) = true).
Proof.
  unfold ServerAddr_of, ServiceEndpoint_of, String_of.
  revert w. induction ss as [|s ss IH]; intros w.
  - intros [= <-]. repeat split; [done | simpl; lia | done].
  - simpl. rewrite bind_run.
    destruct (run_step s w) as [[] w1|] eqn:Hs; [|done].
    intros Hrest.
    destruct (run_step_keeps s w w1 Hs) as (Hh & Hu & Hp & Hl & Hc).
    destruct (IH w1 Hrest) as (Ha & He & Hn & Hp' & Hl' & Hc').
    rewrite <- Hh, <- Hu. repeat split; [done.. | by etrans | | auto].
    destruct s; simpl in *; lia.
Qed.

Lemma life_keeps_identity_witness :
  exists w',
    @run_steps env_netfail
      [StepOp OpLock args1; StepClose; StepSleep 6000000000;
       StepOp OpRLock args1] (up_world env_netfail) = Ret tt w' /\
    ServerAddr_of (client w') = "node1:9000" /\
    ServiceEndpoint_of (client w') = "/minio/lock/v2" /\
    @String_of env_netfail (client w') = "node1:9000" /\
    [] `prefix_of` rc_log (restClient (client w')) /\
    (length (rc_log (restClient (client w'))) <= 0 + 2)%nat /\
    (false = true -> rc_closed (restClient (client w')) = true).
Proof.
  eexists. split; [vm_compute; reflexivity|].
  apply (@life_keeps_identity env_netfail
           [StepOp OpLock args1; StepClose; StepSleep 6000000000;
            StepOp OpRLock args1] (up_world env_netfail)).
  vm_compute. reflexivity.
Defined.

(** ** The constructor *)

(** X8.  Right after construction [IsOnline] tells whether the transport
    could be built.  Either way the client answers for the peer it was
    built for, at the lock path, and has called nothing yet; its URL is
    https exactly when the cluster runs with SSL, and only then is a TLS
    configuration handed to the transport, pinned to the peer's name and
    to HTTP/1.1. *)
Theorem newlockRESTClient_shape `{Env} (now : Z) (peer : Host) :
  (IsOnline (newlockRESTClient now peer) = true <->
   rest_NewClient (peerURL peer) (peerTLS peer) = None) /\
  ServerAddr_of (newlockRESTClient now peer) = Host_String peer /\
  ServiceEndpoint_of (newlockRESTClient now peer) = lockRESTPath /\
  String_of (newlockRESTClient now peer) = Host_String peer /\
  rc_log (restClient (newlockRESTClient now peer)) = [] /\
  (Scheme (serverURL (newlockRESTClient now peer)) = "https" <->
   globalIsSSL = true) /\
  peerTLS peer =
    (if globalIsSSL
     then Some {| ServerName := Name peer; RootCAs := globalRootCAs;
                  NextProtos := ["http/1.1"] |}
     else None).
Proof.
  unfold IsOnline, ServerAddr_of, ServiceEndpoint_of, String_of,
    newlockRESTClient.
  split.
  { destruct (rest_NewClient _ _); simpl; split; done. }
  repeat split; try (destruct (rest_NewClient _ _); simpl; done).
  - destruct (rest_NewClient _ _); simpl; unfold peerURL;
      destruct globalIsSSL; simpl; done.
  - destruct (rest_NewClient _ _); simpl; unfold peerURL;
      destruct globalIsSSL; simpl; done.
Qed.

(** ** The error mapping, once more *)

(** X9.  [toLockError] changes which value an error is, never its text,
    and applying it to its own result changes nothing. *)
Theorem toLockError_canonical `{Env} (err : option error) :
  toLockError (toLockError err) = toLockError err /\
  Error <$> toLockError err = Error <$> err.
Proof.
  destruct err as [e|]; [|done]. unfold toLockError. simpl.
  destruct (decide (Error e = lockConflictText)) as [Hc|Hc]; simpl.
  { rewrite decide_True by done. by rewrite Hc. }
  destruct (decide (Error e = lockNotExpiredText)) as [Hn|Hn]; simpl.
  { rewrite decide_False by congruence. rewrite decide_True by done.
    by rewrite Hn. }
  by rewrite !decide_False.
Qed.

(** * The environment package *)

(** X10.  [Get] gives the value of a variable that is set, the empty
    value included, and the default only for one that is not set: a
    result other than the default shows the variable is set to it, and
    with the empty default [Get] is the first component of [Lookup]. *)
Theorem env_Get_from_Lookup (environ : gmap string string) (key d : string) :
  envpkg.Get environ key d =
    (if (envpkg.Lookup environ key).2 then (envpkg.Lookup environ key).1 else d) /\
  envpkg.Get environ key "" = (envpkg.Lookup environ key).1 /\
  (forall v, environ !! key = Some v -> envpkg.Get environ key d = v) /\
  (envpkg.Get environ key d <> d ->
   envpkg.Lookup environ key = (envpkg.Get environ key d, true)).
Proof.
  unfold envpkg.Get, envpkg.Lookup, envpkg.os_LookupEnv.
  destruct (environ !! key) as [v|]; simpl; repeat split; try done.
  by intros v' [= ->].
Qed.

(** * The local server information *)

Section LocalInfo.
Context {U : Type}.
Variables (getUsage getHistoric : nat -> U).

Lemma hosts_cons (ep : admin.Endpoint) (rest : list admin.Endpoint) :
  admin.hosts (ep :: rest) = {[admin.Host ep]} ∪ admin.hosts rest.
Proof. reflexivity. Qed.

Lemma locals_cons_length (ep : admin.Endpoint) (rest : list admin.Endpoint) :
  length (admin.locals (ep :: rest))
    = ((if admin.IsLocal ep then 1 else 0) + length (admin.locals rest))%nat.
Proof.
  unfold admin.locals. rewrite filter_cons.
  destruct (admin.IsLocal ep);
    [rewrite decide_True by done | rewrite decide_False by done]; done.
Qed.

Lemma memUsage_step_eq (m h : list U) (seen : gset string) (ep : admin.Endpoint) :
  admin.memUsage_step getUsage getHistoric (m, h, seen) ep =
    if decide (admin.Host ep ∈ seen) then (m, h, seen)
    else if admin.IsLocal ep
         then (m ++ [getUsage (length m)], h ++ [getHistoric (length h)],
               seen ∪ {[admin.Host ep]})
         else (m, h, seen ∪ {[admin.Host ep]}).
Proof. reflexivity. Qed.

Lemma fresh_in_rest (ep : admin.Endpoint) (rest : list admin.Endpoint)
    (seen : gset string) :
  NoDup (admin.Host <$> ep :: rest) ->
  (forall ep', ep' ∈ ep :: rest -> admin.Host ep' ∉ seen) ->
  NoDup (admin.Host <$> rest) /\
  forall ep', ep' ∈ rest -> admin.Host ep' ∉ seen ∪ {[admin.Host ep]}.
Proof.
  rewrite fmap_cons. intros [Hnot Hnd]%NoDup_cons Hfresh. split; [done|].
  intros ep' Hep'.
  assert (admin.Host ep' <> admin.Host ep).
  { intros Heq. apply Hnot. rewrite <- Heq. by apply list_elem_of_fmap_2. }
  assert (admin.Host ep' ∉ seen) by (apply Hfresh; by right).
  set_solver.
Qed.

(** What the loop of [getLocalMemUsage] has done when it ends, from any
    state it may start a turn in. *)
Lemma memUsage_loop_inv (endpoints : list admin.Endpoint) :
  forall (m h : list U) (seen : gset string),
  exists n : nat,
    foldl (admin.memUsage_step getUsage getHistoric) (m, h, seen) endpoints
      = (m ++ (getUsage <$> seq (length m) n),
         h ++ (getHistoric <$> seq (length h) n),
         seen ∪ admin.hosts endpoints) /\
    (n <= length (admin.locals endpoints))%nat /\
    (n + size seen <= size (seen ∪ admin.hosts endpoints))%nat /\
    (NoDup (admin.Host <$> endpoints) ->
     (forall ep, ep ∈ endpoints -> admin.Host ep ∉ seen) ->
     n = length (admin.locals endpoints)).
Proof.
  induction endpoints as [|ep rest IH]; intros m h seen.
  - exists 0%nat. unfold admin.hosts. simpl.
    rewrite !app_nil_r, (right_id_L ∅ (∪)). repeat split; [lia..|done].
  - cbn [foldl]. rewrite memUsage_step_eq, hosts_cons, locals_cons_length.
    destruct (decide (admin.Host ep ∈ seen)) as [Hin|Hnin].
    + destruct (IH m h seen) as (n & Heq & Hle & Hsz & Hex).
      exists n. rewrite Heq.
      assert (Hset : seen ∪ ({[admin.Host ep]} ∪ admin.hosts rest)
                     = seen ∪ admin.hosts rest) by set_solver.
      rewrite Hset. split; [done|]. split; [lia|]. split; [done|].
      intros _ Hfresh. exfalso. apply (Hfresh ep); [by left | done].
    + assert (Hset : seen ∪ ({[admin.Host ep]} ∪ admin.hosts rest)
                     = seen ∪ {[admin.Host ep]} ∪ admin.hosts rest)
        by set_solver.
      assert (Hone : size (seen ∪ {[admin.Host ep]}) = (size seen + 1)%nat).
      { rewrite size_union by set_solver. by rewrite size_singleton. }
      rewrite Hset.
      destruct (admin.IsLocal ep) eqn:Hloc.
      * destruct (IH (m ++ [getUsage (length m)])
                     (h ++ [getHistoric (length h)])
                     (seen ∪ {[admin.Host ep]})) as (n & Heq & Hle & Hsz & Hex).
        exists (S n). rewrite Heq, !length_app. cbn [length seq fmap list_fmap].
        rewrite <- !(assoc_L (++)), !Nat.add_1_r. cbn [app].
        split; [done|]. split; [lia|]. split; [lia|].
        intros Hnd Hfresh.
        destruct (fresh_in_rest ep rest seen Hnd Hfresh) as [Hnd' Hfresh'].
        rewrite (Hex Hnd' Hfresh'). done.
      * destruct (IH m h (seen ∪ {[admin.Host ep]})) as (n & Heq & Hle & Hsz & Hex).
        exists n. rewrite Heq.
        split; [done|]. split; [lia|]. split; [lia|].
        intros Hnd Hfresh.
        destruct (fresh_in_rest ep rest seen Hnd Hfresh) as [Hnd' Hfresh'].
        rewrite (Hex Hnd' Hfresh'). done.
Qed.

End LocalInfo.

(** X11.  [getLocalMemUsage] asks the two samplers equally often, once
    per host it reports, each time anew and in order; it reports at most
    one host per local endpoint and at most one per distinct host of the
    list.  The address is the request's host, or the local peer in a
    distributed setup. *)
Theorem mem_usage_once_per_host {U : Type} (getUsage getHistoric : nat -> U)
    (distXL : bool) (localPeer : list admin.Endpoint -> string)
    (endpoints : list admin.Endpoint) (rHost : string) :
  exists n : nat,
    admin.Usage (admin.getLocalMemUsage getUsage getHistoric distXL localPeer
                   endpoints rHost) = getUsage <$> seq 0 n /\
    admin.HistoricUsage (admin.getLocalMemUsage getUsage getHistoric distXL
                           localPeer endpoints rHost) = getHistoric <$> seq 0 n /\
    (n <= length (admin.locals endpoints))%nat /\
    (n <= size (admin.hosts endpoints))%nat /\
    admin.mu_Addr (admin.getLocalMemUsage getUsage getHistoric distXL localPeer
                     endpoints rHost)
      = (if distXL then localPeer endpoints else rHost).
Proof.
  destruct (memUsage_loop_inv getUsage getHistoric endpoints [] [] ∅)
    as (n & Heq & Hle & Hsz & _).
  exists n. unfold admin.getLocalMemUsage. rewrite Heq. simpl.
  rewrite size_empty, (left_id_L ∅ (∪)) in Hsz.
  repeat split; [done | lia].
Qed.

(** X12.  [getLocalCPULoad] does the same with the two load samplers. *)
Theorem cpu_load_once_per_host {L : Type} (getLoad getHistoric : nat -> L)
    (distXL : bool) (localPeer : list admin.Endpoint -> string)
    (endpoints : list admin.Endpoint) (rHost : string) :
  exists n : nat,
    admin.Load (admin.getLocalCPULoad getLoad getHistoric distXL localPeer
                  endpoints rHost) = getLoad <$> seq 0 n /\
    admin.HistoricLoad (admin.getLocalCPULoad getLoad getHistoric distXL
                          localPeer endpoints rHost) = getHistoric <$> seq 0 n /\
    (n <= length (admin.locals endpoints))%nat /\
    (n <= size (admin.hosts endpoints))%nat /\
    admin.cl_Addr (admin.getLocalCPULoad getLoad getHistoric distXL localPeer
                     endpoints rHost)
      = (if distXL then localPeer endpoints else rHost).
Proof.
  destruct (memUsage_loop_inv getLoad getHistoric endpoints [] [] ∅)
    as (n & Heq & Hle & Hsz & _).
  exists n. unfold admin.getLocalCPULoad.
  change (admin.cpuLoad_step getLoad getHistoric)
    with (admin.memUsage_step getLoad getHistoric).
  rewrite Heq. simpl.
  rewrite size_empty, (left_id_L ∅ (∪)) in Hsz.
  repeat split; [done | lia].
Qed.

(** X13.  When no two endpoints of the list share a host, both
    functions report every local endpoint: as many samples as there are
    local endpoints. *)
Theorem distinct_hosts_all_sampled {U L : Type}
    (getUsage getHistoricUsage : nat -> U) (getLoad getHistoricLoad : nat -> L)
    (distXL : bool) (localPeer : list admin.Endpoint -> string)
    (endpoints : list admin.Endpoint) (rHost : string) :
  NoDup (admin.Host <$> endpoints) ->
  length (admin.Usage (admin.getLocalMemUsage getUsage getHistoricUsage distXL
                         localPeer endpoints rHost))
    = length (admin.locals endpoints) /\
  length (admin.Load (admin.getLocalCPULoad getLoad getHistoricLoad distXL
                        localPeer endpoints rHost))
    = length (admin.locals endpoints).
Proof.
  intros Hnd.
  destruct (memUsage_loop_inv getUsage getHistoricUsage endpoints [] [] ∅)
    as (n & Heq & _ & _ & Hex).
  destruct (memUsage_loop_inv getLoad getHistoricLoad endpoints [] [] ∅)
    as (n' & Heq' & _ & _ & Hex').
  unfold admin.getLocalMemUsage, admin.getLocalCPULoad.
  change (admin.cpuLoad_step getLoad getHistoricLoad)
    with (admin.memUsage_step getLoad getHistoricLoad).
  rewrite Heq, Heq'. simpl. rewrite !length_fmap, !length_seq.
  split; [apply Hex | apply Hex']; (done || set_solver).
Qed.

Lemma distinct_hosts_all_sampled_witness :
  length (admin.Usage (admin.getLocalMemUsage (fun k => k) (fun k => k) false
                         (fun _ => "") [ep_local1; ep_remote] "a:9000"))
    = length (admin.locals [ep_local1; ep_remote]) /\
  length (admin.Load (admin.getLocalCPULoad (fun k => k) (fun k => k) false
                        (fun _ => "") [ep_local1; ep_remote] "a:9000"))
    = length (admin.locals [ep_local1; ep_remote]).
Proof.
  apply (@distinct_hosts_all_sampled nat nat).
  apply (bool_decide_unpack _). vm_compute. reflexivity.
Defined.

(** X14.  An endpoint whose host was met earlier in the list changes
    nothing in the memory report, local or not: the report is that of
    the list without it. *)
Theorem seen_host_is_skipped {U : Type} (getUsage getHistoric : nat -> U)
    (distXL : bool) (localPeer : list admin.Endpoint -> string)
    (before after : list admin.Endpoint) (ep : admin.Endpoint)
    (rHost : string) :
  admin.Host ep ∈ admin.hosts before ->
  admin.Usage (admin.getLocalMemUsage getUsage getHistoric distXL localPeer
                 (before ++ ep :: after) rHost)
    = admin.Usage (admin.getLocalMemUsage getUsage getHistoric distXL localPeer
                     (before ++ after) rHost) /\
  admin.HistoricUsage (admin.getLocalMemUsage getUsage getHistoric distXL
                         localPeer (before ++ ep :: after) rHost)
    = admin.HistoricUsage (admin.getLocalMemUsage getUsage getHistoric distXL
                             localPeer (before ++ after) rHost).
Proof.
  intros Hin. unfold admin.getLocalMemUsage. rewrite !foldl_app.
  destruct (memUsage_loop_inv getUsage getHistoric before [] [] ∅)
    as (n & -> & _).
  cbn [foldl]. rewrite memUsage_step_eq, decide_True by set_solver.
  by destruct (foldl _ _ after) as [[m h] seen].
Qed.

Lemma seen_host_is_skipped_witness :
  admin.Usage (admin.getLocalMemUsage (fun k => k) (fun k => k) false
                 (fun _ => "") ([ep_local1] ++ ep_local2 :: [ep_remote]) "a:9000")
    = admin.Usage (admin.getLocalMemUsage (fun k => k) (fun k => k) false
                     (fun _ => "") ([ep_local1] ++ [ep_remote]) "a:9000") /\
  admin.HistoricUsage (admin.getLocalMemUsage (fun k => k) (fun k => k) false
                         (fun _ => "") ([ep_local1] ++ ep_local2 :: [ep_remote])
                         "a:9000")
    = admin.HistoricUsage (admin.getLocalMemUsage (fun k => k) (fun k => k) false
                             (fun _ => "") ([ep_local1] ++ [ep_remote]) "a:9000").
Proof.
  apply (@seen_host_is_skipped nat).
  apply (bool_decide_unpack _). vm_compute. reflexivity.
Defined.

Section CPUInfo.
Context {I : Type}.
Variable info : nat -> list I + string.

Lemma cpuInfo_loop_all (blocks : nat -> list I) (endpoints : list admin.Endpoint) :
  forall (asked : nat) (acc : list I),
    (forall k, (asked <= k < asked + length (admin.locals endpoints))%nat ->
               info k = inl (blocks k)) ->
    admin.cpuInfo_loop info ∅ asked acc endpoints
      = inl (acc ++ concat (blocks <$> seq asked (length (admin.locals endpoints)))).
Proof.
  induction endpoints as [|ep rest IH]; intros asked acc Hok.
  - simpl. by rewrite app_nil_r.
  - cbn [admin.cpuInfo_loop]. rewrite decide_False by set_solver.
    rewrite locals_cons_length in *.
    destruct (admin.IsLocal ep).
    + rewrite (Hok asked) by lia.
      rewrite IH by (intros k Hk; apply Hok; lia).
      simpl. by rewrite (assoc_L (++)).
    + apply IH. intros k Hk. apply Hok. simpl. lia.
Qed.

Lemma cpuInfo_loop_fails (endpoints : list admin.Endpoint) :
  forall (asked k : nat) (acc : list I) (err : string),
    (asked <= k < asked + length (admin.locals endpoints))%nat ->
    (forall j, (asked <= j < k)%nat -> exists b, info j = inl b) ->
    info k = inr err ->
    admin.cpuInfo_loop info ∅ asked acc endpoints = inr err.
Proof.
  induction endpoints as [|ep rest IH]; intros asked k acc err Hk Hbefore Hfail.
  - simpl in Hk. lia.
  - cbn [admin.cpuInfo_loop]. rewrite decide_False by set_solver.
    rewrite locals_cons_length in Hk.
    destruct (admin.IsLocal ep).
    + destruct (decide (k = asked)) as [->|Hne].
      * by rewrite Hfail.
      * destruct (Hbefore asked) as [b Hb]; [lia|]. rewrite Hb.
        apply (IH (S asked) k); [lia | | done].
        intros j Hj. apply Hbefore. lia.
    + apply (IH asked k); [simpl in Hk; lia | done | done].
Qed.

End CPUInfo.

(** X15.  [getLocalCPUInfo] asks for the hardware once per local
    endpoint, also when several endpoints are on one host: with every
    answer good, the report is the answers one after the other, as many
    as there are local endpoints. *)
Theorem cpu_info_once_per_local_endpoint {I : Type}
    (info : nat -> list I + string) (blocks : nat -> list I)
    (distXL : bool) (localPeer : list admin.Endpoint -> string)
    (endpoints : list admin.Endpoint) (rHost : string) :
  (forall k, (k < length (admin.locals endpoints))%nat -> info k = inl (blocks k)) ->
  admin.getLocalCPUInfo info distXL localPeer endpoints rHost =
    {| admin.ch_Addr := if distXL then localPeer endpoints else rHost;
       admin.ch_Error := "";
       admin.CPUInfo :=
         concat (blocks <$> seq 0 (length (admin.locals endpoints))) |}.
Proof.
  intros Hok. unfold admin.getLocalCPUInfo.
  rewrite (cpuInfo_loop_all info blocks endpoints 0 [])
    by (intros k Hk; apply Hok; lia).
  done.
Qed.

Lemma cpu_info_once_per_local_endpoint_witness :
  admin.getLocalCPUInfo (fun _ => inl ["cpu0"; "cpu1"]) false (fun _ => "")
    [ep_local1; ep_local2; ep_remote] "a:9000" =
    {| admin.ch_Addr := "a:9000";
       admin.ch_Error := "";
       admin.CPUInfo := ["cpu0"; "cpu1"; "cpu0"; "cpu1"] |}.
Proof.
  apply (@cpu_info_once_per_local_endpoint string
           (fun _ => inl ["cpu0"; "cpu1"]) (fun _ => ["cpu0"; "cpu1"])
           false (fun _ => "") [ep_local1; ep_local2; ep_remote] "a:9000").
  reflexivity.
Defined.

(** X16.  When an answer of the hardware query is an error, and those
    before it were not, [getLocalCPUInfo] reports that error alone: no
    address and no hardware, not even what it had gathered. *)
Theorem cpu_info_error_alone {I : Type} (info : nat -> list I + string)
    (distXL : bool) (localPeer : list admin.Endpoint -> string)
    (endpoints : list admin.Endpoint) (rHost : string) (k : nat) (err : string) :
  (k < length (admin.locals endpoints))%nat ->
  (forall j, (j < k)%nat -> exists b, info j = inl b) ->
  info k = inr err ->
  admin.getLocalCPUInfo info distXL localPeer endpoints rHost =
    {| admin.ch_Addr := ""; admin.ch_Error := err; admin.CPUInfo := [] |}.
Proof.
  intros Hk Hbefore Hfail. unfold admin.getLocalCPUInfo.
  rewrite (cpuInfo_loop_fails info endpoints 0 k [] err); [done | lia | | done].
  intros j Hj. apply Hbefore. lia.
Qed.

Lemma cpu_info_error_alone_witness :
  admin.getLocalCPUInfo
    (fun k => if Nat.eqb k 1 then inr "no cpu" else inl ["cpu0"])
    true (fun _ => "a:9000") [ep_local1; ep_remote; ep_local2] "x" =
    {| admin.ch_Addr := ""; admin.ch_Error := "no cpu"; admin.CPUInfo := [] |}.
Proof.
  apply (@cpu_info_error_alone string
           (fun k => if Nat.eqb k 1 then inr "no cpu" else inl ["cpu0"])
           true (fun _ => "a:9000") [ep_local1; ep_remote; ep_local2] "x" 1%nat
           "no cpu").
  - vm_compute. lia.
  - intros j Hj. exists ["cpu0"]. destruct j as [|j]; [reflexivity | lia].
  - reflexivity.
Defined.
